(** * Address book helpers of [saleor/account/utils.py]

    A shallow embedding of the account helpers (storing an address in a
    user's address book, maintaining the default billing / shipping
    pointers, resolving a display name) together with the catalogue
    scope of discounts, and the properties stated about them. *)

From Stdlib Require Import Ascii String.
From stdpp Require Import base decidable countable strings gmap sets list.

Local Open Scope string_scope.
Local Open Scope nat_scope.

#[local] Set Warnings "-clear-no-such-hyp".

(** ** Data model *)

(** Modelled from the spec: [checkout.AddressType] is imported by
    [utils.py] but declared elsewhere; the spec gives it as the
    enumeration {BILLING, SHIPPING}. *)
Inductive AddressType := BILLING | SHIPPING.

#[global] Instance AddressType_eq_dec : EqDecision AddressType.
Proof. solve_decision. Defined.

(** Modelled from the spec: the [Address] model class is declared in
    [account/models.py], which is not among the sources.  The spec
    describes it as a value record (street, city, country, names);
    [as_data] is the dictionary of all its fields but the primary key. *)
Module AddressData.
Record t := mk {
  first_name : string;
  last_name : string;
  street_address : string;
  city : string;
  country : string
}.

#[global] Instance eq_dec : EqDecision t.
Proof. solve_decision. Defined.

Definition to_tuple (d : t) : string * string * string * string * string :=
  (first_name d, last_name d, street_address d, city d, country d).

Definition of_tuple (p : string * string * string * string * string) : t :=
  let '(f, l, s, c, k) := p in mk f l s c k.

#[global] Instance countable : Countable t.
Proof.
  refine (inj_countable' to_tuple of_tuple _).
  intros [f l s c k]. reflexivity.
Defined.
End AddressData.

(** An [Address] instance: a row of the address table, identified by
    its primary key, carrying the field values. *)
Module Address.
Record t := mk {
  pk : nat;
  data : AddressData.t
}.

#[global] Instance eq_dec : EqDecision t.
Proof. solve_decision. Defined.

#[global] Instance countable : Countable t.
Proof.
  refine (inj_countable' (λ a, (pk a, data a)) (λ p, mk p.1 p.2) _).
  intros [n d]. reflexivity.
Defined.

Definition first_name (a : t) : string := AddressData.first_name (data a).
Definition last_name (a : t) : string := AddressData.last_name (data a).

(** [address.as_data()] *)
Definition as_data (a : t) : AddressData.t := data a.
End Address.

(** The fields of a [User] that the helpers read or write.  The same
    record describes the in-memory instance and the persisted row. *)
Module User.
Record t := mk {
  first_name : string;
  last_name : string;
  default_billing_address : option Address.t;
  default_shipping_address : option Address.t
}.

#[global] Instance eq_dec : EqDecision t.
Proof. solve_decision. Defined.

Definition with_default_billing_address (v : option Address.t) (u : t) : t :=
  mk (first_name u) (last_name u) v (default_shipping_address u).

Definition with_default_shipping_address (v : option Address.t) (u : t) : t :=
  mk (first_name u) (last_name u) (default_billing_address u) v.

Definition with_first_name (v : string) (u : t) : t :=
  mk v (last_name u) (default_billing_address u) (default_shipping_address u).

Definition with_last_name (v : string) (u : t) : t :=
  mk (first_name u) v (default_billing_address u) (default_shipping_address u).
End User.

(** Names accepted in [save(update_fields=[...])]. *)
Inductive Field :=
  | F_first_name
  | F_last_name
  | F_default_billing_address
  | F_default_shipping_address.

(** The state the helpers act on: the [user] instance they are handed,
    the row that instance was loaded from, the many-to-many relation
    [user.addresses] (the address book) and the sequence that numbers
    newly created address rows. *)
Record World := mkWorld {
  user : User.t;
  user_row : User.t;
  addresses : gset Address.t;
  address_seq : nat
}.

#[global] Instance World_eq_dec : EqDecision World.
Proof. solve_decision. Defined.

(** ** Effects: state with exceptions

    A computation maps a world to an outcome and the world it leaves
    behind; what was written before an exception stays written. *)

Inductive Exception := MultipleObjectsReturned.

Inductive Outcome (A : Type) :=
  | Ok (a : A)
  | Raise (e : Exception).
Arguments Ok {A} a.
Arguments Raise {A} e.

Definition M (A : Type) : Type := World → Outcome A * World.

#[global] Instance M_ret : MRet M := λ A a w, (Ok a, w).

#[global] Instance M_bind : MBind M := λ A B f m w,
  match m w with
  | (Ok a, w') => f a w'
  | (Raise e, w') => (Raise e, w')
  end.

(** The world a computation leaves. *)
Definition exec {A} (m : M A) (w : World) : World := (m w).2.

(** ** Persistence layer *)

(** Python truth value of an optional related instance and of a string. *)
Definition truthy {A} (o : option A) : bool :=
  match o with Some _ => true | None => false end.

Definition str_truthy (s : string) : bool :=
  match s with "" => false | _ => true end.

(** Entries of a book whose field values are [d]. *)
Definition matching (d : AddressData.t) (book : gset Address.t) : gset Address.t :=
  filter (λ a, Address.as_data a = d) book.

(** [user.addresses.get_or_create] applied to the field values [d]: the
    single related row with these field values when there is one; a new
    row, related to the user, when there is none; [MultipleObjectsReturned] otherwise. *)
Definition addresses_get_or_create (d : AddressData.t) : M Address.t := λ w,
  match elements (matching d (addresses w)) with
  | [] =>
      let a := Address.mk (address_seq w) d in
      (Ok a, mkWorld (user w) (user_row w) ({[a]} ∪ addresses w) (S (address_seq w)))
  | [a] => (Ok a, w)
  | _ => (Raise MultipleObjectsReturned, w)
  end.

(** [user.addresses.add(a)] *)
Definition addresses_add (a : Address.t) : M unit := λ w,
  (Ok (), mkWorld (user w) (user_row w) ({[a]} ∪ addresses w) (address_seq w)).

(** Attribute reads and writes on the [user] instance. *)
Definition get_user : M User.t := λ w, (Ok (user w), w).

Definition set_user (f : User.t → User.t) : M unit := λ w,
  (Ok (), mkWorld (f (user w)) (user_row w) (addresses w) (address_seq w)).

(** Copy one field of the instance [u] into the row [r]. *)
Definition save_field (u : User.t) (f : Field) (r : User.t) : User.t :=
  match f with
  | F_first_name => User.with_first_name (User.first_name u) r
  | F_last_name => User.with_last_name (User.last_name u) r
  | F_default_billing_address =>
      User.with_default_billing_address (User.default_billing_address u) r
  | F_default_shipping_address =>
      User.with_default_shipping_address (User.default_shipping_address u) r
  end.

(** [user.save(update_fields=fs)] *)
Definition user_save (update_fields : list Field) : M unit := λ w,
  (Ok (),
   mkWorld (user w) (foldr (save_field (user w)) (user_row w) update_fields)
           (addresses w) (address_seq w)).

(** ** The helpers of [account/utils.py] *)

Definition set_user_default_billing_address (address : Address.t) : M unit :=
  set_user (User.with_default_billing_address (Some address));;
  user_save [F_default_billing_address].

Definition set_user_default_shipping_address (address : Address.t) : M unit :=
  set_user (User.with_default_shipping_address (Some address));;
  user_save [F_default_shipping_address].

Section Obfuscated.
(** [core.demo_obfuscators.obfuscate_address] is imported by
    [utils.py] and declared elsewhere; the helpers are parametric in
    it. *)
Variable obfuscate_address : Address.t → Address.t.

Definition store_user_address (address : Address.t) (address_type : AddressType)
    : M unit :=
  let address := obfuscate_address address in
  address ← addresses_get_or_create (Address.as_data address);
  u ← get_user;
  match address_type with
  | BILLING =>
      if negb (truthy (User.default_billing_address u))
      then set_user_default_billing_address address
      else mret ()
  | SHIPPING =>
      if negb (truthy (User.default_shipping_address u))
      then set_user_default_shipping_address address
      else mret ()
  end.
End Obfuscated.

Definition change_user_default_address (address : Address.t)
    (address_type : AddressType) : M unit :=
  u ← get_user;
  match address_type with
  | BILLING =>
      match User.default_billing_address u with
      | Some old => addresses_add old
      | None => mret ()
      end;;
      set_user_default_billing_address address
  | SHIPPING =>
      match User.default_shipping_address u with
      | Some old => addresses_add old
      | None => mret ()
      end;;
      set_user_default_shipping_address address
  end.

Definition get_user_first_name (u : User.t) : option string :=
  if str_truthy (User.first_name u) then Some (User.first_name u)
  else match User.default_billing_address u with
       | Some a => Some (Address.first_name a)
       | None => None
       end.

Definition get_user_last_name (u : User.t) : option string :=
  if str_truthy (User.last_name u) then Some (User.last_name u)
  else match User.default_billing_address u with
       | Some a => Some (Address.last_name a)
       | None => None
       end.

(** The default pointer an address type selects. *)
Definition default_of (address_type : AddressType) (u : User.t) : option Address.t :=
  match address_type with
  | BILLING => User.default_billing_address u
  | SHIPPING => User.default_shipping_address u
  end.

(** ** Auxiliary definitions *)

(** Replacing the pointer an address type selects. *)
Definition with_default (address_type : AddressType) (v : option Address.t)
    (u : User.t) : User.t :=
  match address_type with
  | BILLING => User.with_default_billing_address v u
  | SHIPPING => User.with_default_shipping_address v u
  end.

(** The world after the setter for [address_type] has run. *)
Definition installed (address_type : AddressType) (a : Address.t) (w : World) : World :=
  mkWorld (with_default address_type (Some a) (user w))
          (with_default address_type (Some a) (user_row w))
          (addresses w) (address_seq w).

Definition set_user_default_address (T : AddressType) : Address.t → M unit :=
  match T with
  | BILLING => set_user_default_billing_address
  | SHIPPING => set_user_default_shipping_address
  end.

Definition other_type (T : AddressType) : AddressType :=
  match T with BILLING => SHIPPING | SHIPPING => BILLING end.

(** The world after the conditional part of [store_user_address]: [a]
    becomes the default of the given type when there is none. *)
Definition settled (address_type : AddressType) (a : Address.t) (w : World) : World :=
  match default_of address_type (user w) with
  | None => installed address_type a w
  | Some _ => w
  end.

(** The three ways [get_or_create] can go. *)
Inductive get_or_create_case (d : AddressData.t) (w : World) : Prop :=
  | goc_created :
      matching d (addresses w) = ∅ →
      addresses_get_or_create d w =
        (Ok (Address.mk (address_seq w) d),
         mkWorld (user w) (user_row w)
                 ({[Address.mk (address_seq w) d]} ∪ addresses w)
                 (S (address_seq w))) →
      get_or_create_case d w
  | goc_reused a :
      matching d (addresses w) = {[a]} →
      addresses_get_or_create d w = (Ok a, w) →
      get_or_create_case d w
  | goc_multiple :
      2 ≤ size (matching d (addresses w)) →
      addresses_get_or_create d w = (Raise MultipleObjectsReturned, w) →
      get_or_create_case d w.

(** ** Concrete inputs *)

(** Modelled from the spec: [obfuscate_address] is declared in
    [core/demo_obfuscators.py], which is not among the sources; the
    spec does not describe it and [utils.py] says no more than that it
    obfuscates the address.  [mask_address] is a stand-in for the places
    where a concrete obfuscator is needed: it keeps the first character
    of the name and street fields and dots out the rest. *)
Fixpoint dots (s : string) : string :=
  match s with
  | EmptyString => EmptyString
  | String _ r => String "."%char (dots r)
  end.

(** Modelled from the spec: first character kept, the others dotted
    out (part of the stand-in obfuscator above). *)
Definition mask (s : string) : string :=
  match s with
  | EmptyString => EmptyString
  | String c r => String c (dots r)
  end.

(** Modelled from the spec: the stand-in for [obfuscate_address]
    described above; the primary key and the city and country fields
    are kept. *)
Definition mask_address (a : Address.t) : Address.t :=
  let d := Address.data a in
  Address.mk (Address.pk a)
    (AddressData.mk (mask (AddressData.first_name d)) (mask (AddressData.last_name d))
                    (mask (AddressData.street_address d))
                    (AddressData.city d) (AddressData.country d)).

Definition main_st : AddressData.t := AddressData.mk "Ann" "Lee" "Main St" "X" "PL".
Definition side_st : AddressData.t := AddressData.mk "Bob" "Ray" "Side St" "Y" "PL".

Definition addr1 : Address.t := Address.mk 1 main_st.
Definition addr2 : Address.t := Address.mk 2 main_st.
Definition addr3 : Address.t := Address.mk 3 side_st.

Definition anonymous : User.t := User.mk "" "" None None.

(** A user without addresses. *)
Definition fresh_world : World := mkWorld anonymous anonymous ∅ 4.

(** A user whose book holds two rows with the same field values, and
    who has no default shipping address. *)
Definition twin_world : World :=
  mkWorld (User.mk "" "" (Some addr3) None) (User.mk "" "" (Some addr3) None)
          {[addr1; addr2]} 4.

(** A user whose default billing address is [addr1], kept in the book. *)
Definition billing_world : World :=
  mkWorld (User.mk "" "" (Some addr1) None) (User.mk "" "" (Some addr1) None)
          {[addr1]} 4.

(** A user whose default billing address is [addr1], absent from the book. *)
Definition unlisted_world : World :=
  mkWorld (User.mk "" "" (Some addr1) None) (User.mk "" "" (Some addr1) None) ∅ 4.

(** ** The operations of the address book as data *)

(** One constructor per helper that changes the address book or a
    default pointer. *)
Inductive Op :=
  | OpStore (address : Address.t) (address_type : AddressType)
  | OpSetBilling (address : Address.t)
  | OpSetShipping (address : Address.t)
  | OpChange (address : Address.t) (address_type : AddressType).

Definition run_op (obf : Address.t → Address.t) (op : Op) : M unit :=
  match op with
  | OpStore a T => store_user_address obf a T
  | OpSetBilling a => set_user_default_billing_address a
  | OpSetShipping a => set_user_default_shipping_address a
  | OpChange a T => change_user_default_address a T
  end.

(** What the caller owes: an address handed to a setter, directly or
    through [change_user_default_address], is in the user's book. *)
Definition op_pre (op : Op) (w : World) : Prop :=
  match op with
  | OpStore _ _ => True
  | OpSetBilling a | OpSetShipping a | OpChange a _ => a ∈ addresses w
  end.

(** Every default pointer that is set, on the instance or on the row,
    references an entry of the book. *)
Definition defaults_in_book (w : World) : Prop :=
  ∀ T a, default_of T (user w) = Some a ∨ default_of T (user_row w) = Some a →
         a ∈ addresses w.

(** Worlds reached from [w] by operations whose precondition holds when
    they run. *)
Inductive reaches (obf : Address.t → Address.t) (w : World) : World → Prop :=
  | reaches_refl : reaches obf w w
  | reaches_step w1 op :
      reaches obf w w1 → op_pre op w1 →
      reaches obf w (exec (run_op obf op) w1).

(** The world after the helpers in [ops] have been called one after
    the other, each from the world its predecessor left; a call that
    raises leaves the world it raised in. *)
Fixpoint exec_ops (obf : Address.t → Address.t) (ops : list Op) (w : World) : World :=
  match ops with
  | [] => w
  | op :: rest => exec_ops obf rest (exec (run_op obf op) w)
  end.

(** ** Statements about the helpers *)

(** No two entries of the book carry the same field values. *)
Definition duplicate_free (book : gset Address.t) : Prop :=
  ∀ d, size (matching d book) ≤ 1.

(** Everything but the type-[T] default pointer is the same in [w] and
    [w']: on the instance and on the row, the names and the other
    default pointer; and the address book. *)
Definition rest_unchanged (T : AddressType) (w w' : World) : Prop :=
  User.first_name (user w') = User.first_name (user w) ∧
  User.last_name (user w') = User.last_name (user w) ∧
  default_of (other_type T) (user w') = default_of (other_type T) (user w) ∧
  User.first_name (user_row w') = User.first_name (user_row w) ∧
  User.last_name (user_row w') = User.last_name (user_row w) ∧
  default_of (other_type T) (user_row w') = default_of (other_type T) (user_row w) ∧
  addresses w' = addresses w ∧
  address_seq w' = address_seq w.

(** What is stated of a setter [m] for the type-[T] default: it
    returns, makes [a] the default of type [T] on the instance and on
    the row, changes nothing else, and leaves the world as it was when
    [a] was that default already. *)
Definition overwrites_only (T : AddressType) (m : M unit) (a : Address.t)
    (w : World) : Prop :=
  let w' := exec m w in
  (m w).1 = Ok () ∧
  default_of T (user w') = Some a ∧
  default_of T (user_row w') = Some a ∧
  rest_unchanged T w w' ∧
  (default_of T (user w) = Some a → default_of T (user_row w) = Some a → w' = w).

(** The statement that the stored address carries the field values of
    the address handed in. *)
Definition stores_as_given (obf : Address.t → Address.t) (w : World)
    (A : Address.t) (T : AddressType) : Prop :=
  default_of T (user w) = None →
  let w' := exec (store_user_address obf A T) w in
  (store_user_address obf A T w).1 = Ok () ∧
  ∃ e, e ∈ addresses w' ∧ Address.as_data e = Address.as_data A ∧
       default_of T (user w') = Some e.

(** The statement that the previous default always ends up a
    non-default entry of the book. *)
Definition demotes_old_default (w : World) (A2 : Address.t) (T : AddressType) : Prop :=
  ∀ A1, default_of T (user w) = Some A1 →
  let w' := exec (change_user_default_address A2 T) w in
  default_of T (user w') = Some A2 ∧
  A1 ∈ addresses w' ∧
  default_of T (user w') ≠ Some A1.

(** The statement that the new address is in the book after the call
    exactly when it was before. *)
Definition keeps_membership (w : World) (A2 : Address.t) (T : AddressType) : Prop :=
  A2 ∈ addresses (exec (change_user_default_address A2 T) w) ↔ A2 ∈ addresses w.

(** The pair the spec calls [resolveDisplayName]. *)
Definition resolveDisplayName (u : User.t) : option string * option string :=
  (get_user_first_name u, get_user_last_name u).

(** The names and the default pointer of the other type are the same
    in [w] and [w'], on the instance and on the row. *)
Definition user_rest_unchanged (T : AddressType) (w w' : World) : Prop :=
  User.first_name (user w') = User.first_name (user w) ∧
  User.last_name (user w') = User.last_name (user w) ∧
  default_of (other_type T) (user w') = default_of (other_type T) (user w) ∧
  User.first_name (user_row w') = User.first_name (user_row w) ∧
  User.last_name (user_row w') = User.last_name (user_row w) ∧
  default_of (other_type T) (user_row w') = default_of (other_type T) (user_row w).

(** The instance holds no default pointer that the row does not. *)
Definition defaults_saved (w : World) : Prop :=
  ∀ T, default_of T (user w) = default_of T (user_row w).

(** ** Catalogue scope of a discount *)

(** Modelled from the spec: the operations that add catalogue entities
    to, and remove them from, the scope of a voucher or sale are not
    among the sources (only the API tests of the mutations are).  The
    spec gives the scope as three independent sets of references;
    [addToScope] adds each supplied entity to the corresponding set,
    [removeFromScope] removes each supplied entity from it, and neither
    can fail.  Entities are referenced by identifier. *)
Record Discount := mkDiscount {
  products : gset nat;
  collections : gset nat;
  categories : gset nat
}.

(** Modelled from the spec: adding each supplied entity to a scope set
    (set union; an entity already there is absorbed). *)
Definition add_each (entities : list nat) (scope : gset nat) : gset nat :=
  foldr (λ e acc, {[e]} ∪ acc) scope entities.

(** Modelled from the spec: removing each supplied entity from a scope
    set (removing an absent entity changes nothing). *)
Definition remove_each (entities : list nat) (scope : gset nat) : gset nat :=
  foldr (λ e acc, acc ∖ {[e]}) scope entities.

(** Modelled from the spec: [addToScope(discount, products,
    collections, categories)]. *)
Definition addToScope (d : Discount) (ps cs gs : list nat) : Discount :=
  mkDiscount (add_each ps (products d)) (add_each cs (collections d))
             (add_each gs (categories d)).

(** Modelled from the spec: [removeFromScope(discount, products,
    collections, categories)]. *)
Definition removeFromScope (d : Discount) (ps cs gs : list nat) : Discount :=
  mkDiscount (remove_each ps (products d)) (remove_each cs (collections d))
             (remove_each gs (categories d)).

(** Occurrences of [P] in the enumeration of a scope set. *)
Definition occurrences (P : nat) (scope : gset nat) : nat :=
  length (filter (λ e, e = P) (elements scope)).

(** * Properties *)

(** ** Facts about the persistence layer *)

Lemma size_elements (X : gset Address.t) : size X = length (elements X).
Proof. reflexivity. Qed.

Lemma elements_nil_empty (X : gset Address.t) : elements X = [] → X = ∅.
Proof. intros H. apply leibniz_equiv. by apply elements_empty_iff. Qed.

Lemma elements_one_singleton (X : gset Address.t) a : elements X = [a] → X = {[a]}.
Proof.
  intros H. apply set_eq. intros x.
  rewrite <- elem_of_elements, H, list_elem_of_singleton, elem_of_singleton.
  reflexivity.
Qed.

Lemma matching_spec d (book : gset Address.t) a :
  a ∈ matching d book ↔ Address.as_data a = d ∧ a ∈ book.
Proof. unfold matching. rewrite elem_of_filter. reflexivity. Qed.

Lemma matching_empty d : matching d ∅ = ∅.
Proof. unfold matching. set_solver. Qed.

Lemma matching_insert_new d (book : gset Address.t) a :
  Address.as_data a = d → matching d book = ∅ → matching d ({[a]} ∪ book) = {[a]}.
Proof. unfold matching. intros Ha He. set_solver. Qed.

Lemma matching_insert_other d (book : gset Address.t) a :
  Address.as_data a ≠ d → matching d ({[a]} ∪ book) = matching d book.
Proof. unfold matching. set_solver. Qed.

Lemma matching_insert_old d (book : gset Address.t) a :
  a ∈ book → matching d ({[a]} ∪ book) = matching d book.
Proof. unfold matching. set_solver. Qed.

Lemma get_or_create_cases d w : get_or_create_case d w.
Proof.
  destruct (elements (matching d (addresses w))) as [|a [|b l]] eqn:E.
  - apply goc_created; [by apply elements_nil_empty |].
    unfold addresses_get_or_create. by rewrite E.
  - apply (goc_reused d w a); [by apply elements_one_singleton |].
    unfold addresses_get_or_create. by rewrite E.
  - apply goc_multiple; [rewrite size_elements, E; simpl; lia |].
    unfold addresses_get_or_create. by rewrite E.
Qed.

(** What the two setters compute. *)
Lemma set_user_default_billing_address_run a w :
  set_user_default_billing_address a w =
    (Ok (),
     mkWorld (User.with_default_billing_address (Some a) (user w))
             (User.with_default_billing_address (Some a) (user_row w))
             (addresses w) (address_seq w)).
Proof. reflexivity. Qed.

Lemma set_user_default_shipping_address_run a w :
  set_user_default_shipping_address a w =
    (Ok (),
     mkWorld (User.with_default_shipping_address (Some a) (user w))
             (User.with_default_shipping_address (Some a) (user_row w))
             (addresses w) (address_seq w)).
Proof. reflexivity. Qed.

Lemma default_of_with_default T v u : default_of T (with_default T v u) = v.
Proof. by destruct T. Qed.

Lemma store_user_address_run obf A T w :
  store_user_address obf A T w =
    match addresses_get_or_create (Address.as_data (obf A)) w with
    | (Ok a, w1) =>
        match default_of T (user w1) with
        | None => (Ok (), installed T a w1)
        | Some _ => (Ok (), w1)
        end
    | (Raise e, w1) => (Raise e, w1)
    end.
Proof.
  unfold store_user_address, mbind, M_bind.
  destruct (addresses_get_or_create _ w) as [[a|e] w1]; [|reflexivity].
  simpl. destruct T; simpl.
  - destruct (User.default_billing_address (user w1)); reflexivity.
  - destruct (User.default_shipping_address (user w1)); reflexivity.
Qed.

Lemma change_user_default_address_run A T w :
  change_user_default_address A T w =
    (Ok (),
     installed T A
       (mkWorld (user w) (user_row w)
                (match default_of T (user w) with
                 | Some old => {[old]} ∪ addresses w
                 | None => addresses w
                 end)
                (address_seq w))).
Proof.
  destruct w as [u r b n].
  unfold change_user_default_address, mbind, M_bind. simpl.
  destruct T; simpl.
  - destruct (User.default_billing_address u); reflexivity.
  - destruct (User.default_shipping_address u); reflexivity.
Qed.

(** Both such worlds arise from the helpers themselves. *)
Example twin_world_reachable :
  exec (change_user_default_address addr1 BILLING;;
        change_user_default_address addr2 BILLING;;
        change_user_default_address addr3 BILLING) fresh_world
  = twin_world.
Proof. reflexivity. Qed.

Example unlisted_world_reachable :
  exec (change_user_default_address addr1 BILLING) fresh_world = unlisted_world.
Proof. reflexivity. Qed.

(** ** Storing an address *)

(** C1, as stated, fails twice over: the address is obfuscated before it
    is stored, so the default installed for an address with field
    values "Ann Lee, Main St" carries "A.. L.., M......"; and a book
    that already holds two rows with the field values to store makes
    [get_or_create] raise, leaving the default unset. *)
Lemma store_user_address_not_as_given :
  ¬ stores_as_given mask_address fresh_world addr1 BILLING ∧
  ¬ stores_as_given id twin_world addr1 SHIPPING.
Proof.
  assert (Hmask :
    default_of BILLING
      (user (exec (store_user_address mask_address addr1 BILLING) fresh_world))
    = Some (Address.mk 4 (AddressData.mk "A.." "L.." "M......" "X" "PL")))
    by reflexivity.
  assert (Htwin :
    (store_user_address id addr1 SHIPPING twin_world).1 = Raise MultipleObjectsReturned)
    by reflexivity.
  split; intros H.
  - destruct (H eq_refl) as (_ & e & _ & Hd & He).
    rewrite Hmask in He. injection He as <-. discriminate Hd.
  - destruct (H eq_refl) as (Hr & _).
    rewrite Htwin in Hr. discriminate Hr.
Qed.

(** C1 (amended).  For a user with no default of type [T] whose book
    holds at most one entry with the field values of
    [obfuscate_address A], [store_user_address] returns; the book then
    holds exactly one entry [e] with those field values (the entry that
    was there, the book being unchanged, or a new one added to it), and
    the type-[T] default, on the instance and on the row, is [e]. *)
Theorem store_user_address_sets_default obf w A T :
  default_of T (user w) = None →
  size (matching (Address.as_data (obf A)) (addresses w)) ≤ 1 →
  let d := Address.as_data (obf A) in
  let w' := exec (store_user_address obf A T) w in
  (store_user_address obf A T w).1 = Ok () ∧
  ∃ e, Address.as_data e = d ∧
       matching d (addresses w') = {[e]} ∧
       (matching d (addresses w) = {[e]} ∧ addresses w' = addresses w ∨
        matching d (addresses w) = ∅ ∧ addresses w' = {[e]} ∪ addresses w) ∧
       default_of T (user w') = Some e ∧
       default_of T (user_row w') = Some e.
Proof.
  intros Hnone Hsize d w'. subst w'. unfold exec.
  rewrite store_user_address_run. fold d.
  destruct (get_or_create_cases d w) as [He Hrun | a He Hrun | Hmany Hrun].
  - rewrite Hrun. simpl. rewrite Hnone. simpl. split; [done|].
    exists (Address.mk (address_seq w) d). split; [reflexivity|].
    rewrite !default_of_with_default.
    split; [by apply matching_insert_new|].
    split; [by right|done].
  - rewrite Hrun. rewrite Hnone. simpl. split; [done|].
    exists a. rewrite !default_of_with_default.
    assert (Ha : a ∈ matching d (addresses w)) by (rewrite He; set_solver).
    apply matching_spec in Ha as [Ha _].
    split; [done|]. split; [done|]. split; [by left|done].
  - fold d in Hsize. lia.
Qed.

Lemma store_user_address_sets_default_witness :
  let w' := exec (store_user_address mask_address addr1 SHIPPING) billing_world in
  (store_user_address mask_address addr1 SHIPPING billing_world).1 = Ok () ∧
  ∃ e, Address.as_data e = Address.as_data (mask_address addr1) ∧
       default_of SHIPPING (user w') = Some e.
Proof.
  destruct (store_user_address_sets_default mask_address billing_world addr1 SHIPPING)
    as (Hr & e & Hd & _ & _ & Hu & _).
  - reflexivity.
  - apply (bool_decide_unpack _). exact I.
  - split; [exact Hr|]. exists e. split; [exact Hd | exact Hu].
Defined.

Lemma get_or_create_single d w a :
  matching d (addresses w) = {[a]} → addresses_get_or_create d w = (Ok a, w).
Proof.
  intros H. unfold addresses_get_or_create. rewrite H, elements_singleton.
  reflexivity.
Qed.

Lemma addresses_installed T a w : addresses (installed T a w) = addresses w.
Proof. reflexivity. Qed.

Lemma default_of_installed T a w : default_of T (user (installed T a w)) = Some a.
Proof. apply default_of_with_default. Qed.

(** A second [store_user_address] with the same arguments finds the
    world as the first one left it. *)
Lemma store_user_address_again obf A T w :
  store_user_address obf A T (exec (store_user_address obf A T) w) =
  ((store_user_address obf A T w).1, exec (store_user_address obf A T) w).
Proof.
  unfold exec. rewrite (store_user_address_run obf A T w).
  set (d := Address.as_data (obf A)).
  destruct (get_or_create_cases d w) as [He Hrun | a He Hrun | Hmany Hrun];
    rewrite Hrun; simpl.
  - set (a := Address.mk (address_seq w) d).
    assert (Hm : matching d ({[a]} ∪ addresses w) = {[a]})
      by (by apply matching_insert_new).
    destruct (default_of T (user w)) eqn:Hdef; simpl;
      rewrite store_user_address_run; fold d.
    + rewrite (get_or_create_single d _ a) by exact Hm. simpl. by rewrite Hdef.
    + rewrite (get_or_create_single d _ a) by exact Hm.
      by rewrite default_of_installed.
  - destruct (default_of T (user w)) eqn:Hdef; simpl;
      rewrite store_user_address_run; fold d.
    + rewrite Hrun. by rewrite Hdef.
    + rewrite (get_or_create_single d _ a) by exact He.
      by rewrite default_of_installed.
  - rewrite store_user_address_run. fold d. by rewrite Hrun.
Qed.

(** [store_user_address] leaves at most one entry with the field values
    it stores, and does not touch the entries with other field values. *)
Lemma store_user_address_matching obf A T w d :
  size (matching d (addresses (exec (store_user_address obf A T) w)))
  ≤ max 1 (size (matching d (addresses w))).
Proof.
  unfold exec. rewrite store_user_address_run.
  set (d0 := Address.as_data (obf A)).
  destruct (get_or_create_cases d0 w) as [He Hrun | a He Hrun | Hmany Hrun];
    rewrite Hrun; simpl.
  - assert (Hb : size (matching d ({[Address.mk (address_seq w) d0]} ∪ addresses w))
                 ≤ max 1 (size (matching d (addresses w)))).
    { destruct (decide (d0 = d)) as [<-|Hne].
      - rewrite matching_insert_new by done. rewrite size_singleton. lia.
      - rewrite matching_insert_other by done. lia. }
    destruct (default_of T (user w)); exact Hb.
  - destruct (default_of T (user w)); simpl; lia.
  - lia.
Qed.

(** C2, as stated, fails in its last clause: a book that already holds
    two structurally identical entries (here the two "Main St" rows that
    two changes of the default left behind) still holds them after an
    address has been stored twice. *)
Lemma store_user_address_keeps_twins :
  let store := store_user_address mask_address addr3 SHIPPING in
  ¬ duplicate_free (addresses (exec store (exec store twin_world))).
Proof.
  intros store H. specialize (H main_st).
  assert (Hsize :
    size (matching main_st (addresses (exec store (exec store twin_world)))) = 2)
    by reflexivity.
  rewrite Hsize in H. lia.
Qed.

(** C2 (amended).  Calling [store_user_address] twice in a row is the
    same as calling it once: the second call returns what the first
    returned (it raises when the first raised) and leaves the world as
    the first left it, so the number of entries in the book and both
    default pointers are unchanged; and storing adds no structurally
    identical duplicate: a book without two such entries before the
    calls has none after them. *)
Theorem store_user_address_idempotent obf w A T :
  let store := store_user_address obf A T in
  let w1 := exec store w in
  let w2 := exec store w1 in
  (store;; store) w = store w ∧
  w2 = w1 ∧
  size (addresses w2) = size (addresses w1) ∧
  User.default_billing_address (user w2) = User.default_billing_address (user w1) ∧
  User.default_shipping_address (user w2) = User.default_shipping_address (user w1) ∧
  User.default_billing_address (user_row w2) = User.default_billing_address (user_row w1) ∧
  User.default_shipping_address (user_row w2) = User.default_shipping_address (user_row w1) ∧
  (duplicate_free (addresses w) → duplicate_free (addresses w2)) ∧
  store w1 = ((store w).1, w1).
Proof.
  intros store w1 w2.
  assert (Hagain : store w1 = ((store w).1, w1))
    by apply store_user_address_again.
  assert (H21 : w2 = w1) by (unfold w2, exec; by rewrite Hagain).
  split.
  - unfold mbind, M_bind. destruct (store w) as [[[]|e] w'] eqn:Hs.
    + fold (store w'). replace w' with w1 by (unfold w1, exec; by rewrite Hs).
      rewrite Hagain. reflexivity.
    + reflexivity.
  - rewrite H21. repeat (split; [reflexivity|]).
    split; [|exact Hagain].
    intros Hfree d. specialize (Hfree d).
    pose proof (store_user_address_matching obf A T w d) as Hle.
    fold store in Hle. fold w1 in Hle. lia.
Qed.

Lemma store_user_address_idempotent_witness :
  let store := store_user_address mask_address addr1 BILLING in
  duplicate_free (addresses (exec store (exec store fresh_world))).
Proof.
  destruct (store_user_address_idempotent mask_address fresh_world addr1 BILLING)
    as (_ & _ & _ & _ & _ & _ & _ & Hfree & _).
  apply Hfree. intros d. simpl.
  rewrite matching_empty, size_empty. lia.
Defined.

(** ** Changing the default address *)

(** C3, as stated, fails when the new default is the address that is
    the default already: it stays the default. *)
Lemma change_user_default_address_same_address :
  ¬ demotes_old_default billing_world addr1 BILLING.
Proof.
  intros H. destruct (H addr1 eq_refl) as (_ & _ & Hne).
  apply Hne. reflexivity.
Qed.

(** C3 (amended).  [change_user_default_address] always returns and
    leaves the type-[T] default, on the instance and on the row, equal
    to [A2].  A previous type-[T] default [A1] is in the book
    afterwards and, unless [A2] is [A1] itself, is no longer the
    type-[T] default; when there was no type-[T] default the book is
    unchanged. *)
Theorem change_user_default_address_demotes w A2 T :
  let w' := exec (change_user_default_address A2 T) w in
  (change_user_default_address A2 T w).1 = Ok () ∧
  default_of T (user w') = Some A2 ∧
  default_of T (user_row w') = Some A2 ∧
  (∀ A1, default_of T (user w) = Some A1 →
     A1 ∈ addresses w' ∧
     (A1 ≠ A2 →
        default_of T (user w') ≠ Some A1 ∧ default_of T (user_row w') ≠ Some A1)) ∧
  (default_of T (user w) = None → addresses w' = addresses w).
Proof.
  intros w'. subst w'. unfold exec.
  rewrite change_user_default_address_run. simpl.
  rewrite !default_of_with_default.
  split; [done|]. split; [done|]. split; [done|]. split.
  - intros A1 H1. rewrite H1. split; [set_solver|].
    intros Hne. split; congruence.
  - intros Hnone. by rewrite Hnone.
Qed.

Lemma change_user_default_address_demotes_witness :
  let w' := exec (change_user_default_address addr3 BILLING) billing_world in
  addr1 ∈ addresses w' ∧ default_of BILLING (user w') ≠ Some addr1 ∧
  addresses (exec (change_user_default_address addr3 SHIPPING) billing_world)
  = addresses billing_world.
Proof.
  destruct (change_user_default_address_demotes billing_world addr3 BILLING)
    as (_ & _ & _ & Hold & _).
  destruct (change_user_default_address_demotes billing_world addr3 SHIPPING)
    as (_ & _ & _ & _ & Hnone).
  destruct (Hold addr1 eq_refl) as (Hin & Hne).
  split; [exact Hin|]. split.
  - apply Hne. discriminate.
  - apply Hnone. reflexivity.
Defined.

(** C10, as stated, fails when the new address is the current default
    and that default is not in the book: it enters the book as the
    previous default. *)
Lemma change_user_default_address_relists :
  ¬ keeps_membership unlisted_world addr1 BILLING.
Proof.
  intros [H _].
  assert (Hin : addr1 ∈ addresses
                  (exec (change_user_default_address addr1 BILLING) unlisted_world)).
  { unfold exec. rewrite change_user_default_address_run. simpl. set_solver. }
  apply H in Hin. simpl in Hin. set_solver.
Qed.

(** C10 (amended).  The book after [change_user_default_address] is the
    book before it with the previous type-[T] default added, when there
    was one; so unless [A2] is that previous default, [A2] is in the
    book afterwards exactly when it was before. *)
Theorem change_user_default_address_book w A2 T :
  let w' := exec (change_user_default_address A2 T) w in
  addresses w' =
    match default_of T (user w) with
    | Some old => {[old]} ∪ addresses w
    | None => addresses w
    end ∧
  (default_of T (user w) ≠ Some A2 → A2 ∈ addresses w' ↔ A2 ∈ addresses w).
Proof.
  intros w'. subst w'. unfold exec.
  rewrite change_user_default_address_run. simpl.
  split; [reflexivity|].
  intros Hne. destruct (default_of T (user w)) as [old|]; [|reflexivity].
  assert (old ≠ A2) by congruence. set_solver.
Qed.

Lemma change_user_default_address_book_witness :
  addr3 ∈ addresses (exec (change_user_default_address addr3 BILLING) billing_world)
  ↔ addr3 ∈ addresses billing_world.
Proof.
  apply (change_user_default_address_book billing_world addr3 BILLING).
  discriminate.
Defined.

(** ** The two setters *)

Lemma set_user_default_address_run T a w :
  set_user_default_address T a w = (Ok (), installed T a w).
Proof. destruct T; reflexivity. Qed.

Lemma installed_same T a w :
  default_of T (user w) = Some a → default_of T (user_row w) = Some a →
  installed T a w = w.
Proof.
  destruct w as [[f l b s] [f' l' b' s'] book n].
  destruct T; simpl; intros -> ->; reflexivity.
Qed.

Lemma set_user_default_address_overwrites_only T a w :
  overwrites_only T (set_user_default_address T a) a w.
Proof.
  unfold overwrites_only, exec. rewrite set_user_default_address_run. simpl.
  rewrite !default_of_with_default.
  split; [done|]. split; [done|]. split; [done|]. split.
  - unfold rest_unchanged. destruct T; simpl; repeat split; reflexivity.
  - apply installed_same.
Qed.

(** C6.  Each setter returns, makes the address the default of its type
    on the instance and on the row, and changes nothing else: the names
    and the other default pointer, on the instance and on the row (which
    keeps its own values, whatever the instance holds), and the address
    book are as before.  When the address is the default of that type
    already, on the instance and on the row, the world is unchanged. *)
Theorem set_user_default_address_frame a w :
  overwrites_only BILLING (set_user_default_billing_address a) a w ∧
  overwrites_only SHIPPING (set_user_default_shipping_address a) a w.
Proof.
  split.
  - apply (set_user_default_address_overwrites_only BILLING).
  - apply (set_user_default_address_overwrites_only SHIPPING).
Qed.

Lemma set_user_default_address_frame_witness :
  exec (set_user_default_billing_address addr1) billing_world = billing_world.
Proof.
  destruct (set_user_default_address_frame addr1 billing_world)
    as [(_ & _ & _ & _ & Hsame) _].
  apply Hsame; reflexivity.
Defined.

(** The row keeps its own names even when the instance carries unsaved
    ones. *)
Example setter_persists_one_field :
  user_row (exec (set_user_default_shipping_address addr1)
              (mkWorld (User.mk "Ann" "Lee" None None) anonymous {[addr1]} 4))
  = User.mk "" "" None (Some addr1).
Proof. reflexivity. Qed.

(** ** Default pointers stay within the book *)

Lemma defaults_in_book_installed T a w :
  defaults_in_book w → a ∈ addresses w → defaults_in_book (installed T a w).
Proof.
  intros Hinv Ha T' b Hb. simpl.
  destruct (decide (T' = T)) as [->|Hne].
  - simpl in Hb. rewrite !default_of_with_default in Hb.
    destruct Hb as [Hb|Hb]; by injection Hb as <-.
  - apply (Hinv T' b). destruct T, T'; try done; exact Hb.
Qed.

Lemma defaults_in_book_grow u r (book book' : gset Address.t) n n' :
  defaults_in_book (mkWorld u r book n) → book ⊆ book' →
  defaults_in_book (mkWorld u r book' n').
Proof. intros Hinv Hsub T a Ha. apply Hsub, (Hinv T a Ha). Qed.

Lemma run_op_keeps_defaults_in_book obf op w :
  defaults_in_book w → op_pre op w → defaults_in_book (exec (run_op obf op) w).
Proof.
  intros Hinv Hpre. unfold exec.
  destruct op as [A T | a | a | A T]; unfold run_op; simpl in Hpre.
  - rewrite store_user_address_run.
    set (d := Address.as_data (obf A)).
    destruct (get_or_create_cases d w) as [He Hrun | a He Hrun | Hmany Hrun];
      rewrite Hrun; simpl.
    + assert (Hgrown : defaults_in_book
        (mkWorld (user w) (user_row w)
                 ({[Address.mk (address_seq w) d]} ∪ addresses w)
                 (S (address_seq w)))).
      { destruct w as [u r book n].
        apply (defaults_in_book_grow u r book _ n); [exact Hinv | set_solver]. }
      destruct (default_of T (user w)); simpl; [exact Hgrown|].
      apply defaults_in_book_installed; [exact Hgrown | simpl; set_solver].
    + assert (Ha : a ∈ matching d (addresses w)) by (rewrite He; set_solver).
      apply matching_spec in Ha as [_ Ha].
      destruct (default_of T (user w)); simpl; [exact Hinv|].
      by apply defaults_in_book_installed.
    + exact Hinv.
  - rewrite set_user_default_billing_address_run.
    by apply (defaults_in_book_installed BILLING).
  - rewrite set_user_default_shipping_address_run.
    by apply (defaults_in_book_installed SHIPPING).
  - rewrite change_user_default_address_run. simpl.
    destruct w as [u r book n]. simpl in *.
    apply defaults_in_book_installed.
    + apply (defaults_in_book_grow u r book _ n); [exact Hinv|].
      destruct (default_of T u); set_solver.
    + simpl. destruct (default_of T u); set_solver.
Qed.

Lemma reaches_keeps_defaults_in_book obf w w' :
  defaults_in_book w → reaches obf w w' → defaults_in_book w'.
Proof.
  intros Hinv Hreach. induction Hreach as [|w1 op _ IH Hpre]; [exact Hinv|].
  by apply run_op_keeps_defaults_in_book.
Qed.

(** C5.  Starting from a world in which every set default pointer
    references an entry of the user's book, each operation
    ([store_user_address], the two setters,
    [change_user_default_address]) leaves such a world, provided an
    address handed to a setter or to [change_user_default_address] is
    in the book; and so does every sequence of such operations. *)
Theorem defaults_in_book_preserved obf op w :
  defaults_in_book w →
  (op_pre op w → defaults_in_book (exec (run_op obf op) w)) ∧
  (∀ w', reaches obf w w' → defaults_in_book w').
Proof.
  intros Hinv. split.
  - by apply run_op_keeps_defaults_in_book.
  - intros w'. by apply reaches_keeps_defaults_in_book.
Qed.

Lemma billing_world_defaults_in_book : defaults_in_book billing_world.
Proof.
  intros T a [H|H]; destruct T; simpl in H; try discriminate;
    injection H as <-;
    change (addr1 ∈ ({[addr1]} : gset Address.t));
    apply elem_of_singleton_2; reflexivity.
Defined.

Lemma defaults_in_book_preserved_witness :
  defaults_in_book
    (exec (run_op mask_address (OpChange addr1 SHIPPING)) billing_world).
Proof.
  destruct (defaults_in_book_preserved mask_address (OpChange addr1 SHIPPING)
              billing_world billing_world_defaults_in_book) as [Hstep _].
  apply Hstep. unfold op_pre, billing_world, addresses.
  apply elem_of_singleton_2. reflexivity.
Defined.

(** Without the caller's guarantee the pointer leaves the book. *)
Example setter_outside_book :
  defaults_in_book billing_world ∧
  ¬ defaults_in_book (exec (run_op id (OpSetShipping addr3)) billing_world).
Proof.
  split; [exact billing_world_defaults_in_book|].
  intros H. specialize (H SHIPPING addr3 (or_introl eq_refl)).
  change (addr3 ∈ ({[addr1]} : gset Address.t)) in H.
  apply elem_of_singleton_1 in H. discriminate H.
Qed.

(** ** What is stored is the obfuscated address *)

Lemma store_user_address_returns obf A T w :
  (store_user_address obf A T w).1 = Ok () ↔
  size (matching (Address.as_data (obf A)) (addresses w)) ≤ 1.
Proof.
  rewrite store_user_address_run.
  set (d := Address.as_data (obf A)).
  destruct (get_or_create_cases d w) as [He Hrun | a He Hrun | Hmany Hrun];
    rewrite Hrun.
  - rewrite He, size_empty. destruct (default_of T _); simpl; split; (done || lia).
  - rewrite He, size_singleton. destruct (default_of T _); simpl; split; (done || lia).
  - simpl. split; [discriminate | lia].
Qed.

Lemma store_user_address_entry obf A T w :
  (store_user_address obf A T w).1 = Ok () →
  let d := Address.as_data (obf A) in
  let w' := exec (store_user_address obf A T) w in
  ∃ e, Address.as_data e = d ∧
       matching d (addresses w') = {[e]} ∧
       addresses w' = {[e]} ∪ addresses w ∧
       (default_of T (user w) = None →
          default_of T (user w') = Some e ∧ default_of T (user_row w') = Some e).
Proof.
  intros Hok d w'. subst w'. unfold exec. revert Hok.
  rewrite store_user_address_run. fold d.
  destruct (get_or_create_cases d w) as [He Hrun | a He Hrun | Hmany Hrun];
    rewrite Hrun; [| |discriminate]; intros _.
  - exists (Address.mk (address_seq w) d). simpl.
    split; [reflexivity|].
    destruct (default_of T (user w)) eqn:Hdef; simpl;
      (split; [by apply matching_insert_new|]); (split; [reflexivity|]).
    + discriminate.
    + intros _. by rewrite !default_of_with_default.
  - exists a.
    assert (Ha : a ∈ matching d (addresses w)) by (rewrite He; set_solver).
    apply matching_spec in Ha as [Had Hin].
    split; [exact Had|].
    destruct (default_of T (user w)) eqn:Hdef; simpl;
      (split; [exact He|]); (split; [set_solver|]).
    + discriminate.
    + intros _. by rewrite !default_of_with_default.
Qed.

(** X17.  Whatever [obfuscate_address] returns, it is its result that
    [store_user_address] looks up, stores and installs: the call
    returns exactly when the book holds at most one entry with the
    field values of [obfuscate_address A]; the book is then the book
    before together with one entry [e] that has those field values and
    is the only one to have them, and when no type-[T] default existed
    [e] is the type-[T] default on the instance and on the row. *)
Theorem store_user_address_stores_obfuscated obf w A T :
  let d := Address.as_data (obf A) in
  let w' := exec (store_user_address obf A T) w in
  ((store_user_address obf A T w).1 = Ok () ↔
     size (matching d (addresses w)) ≤ 1) ∧
  ((store_user_address obf A T w).1 = Ok () →
     ∃ e, Address.as_data e = d ∧
          matching d (addresses w') = {[e]} ∧
          addresses w' = {[e]} ∪ addresses w ∧
          (default_of T (user w) = None →
             default_of T (user w') = Some e ∧
             default_of T (user_row w') = Some e)).
Proof.
  intros d w'. split; [apply store_user_address_returns|].
  intros Hok. by apply store_user_address_entry.
Qed.

Lemma store_user_address_stores_obfuscated_witness :
  ∃ e, Address.as_data e = Address.as_data (mask_address addr3) ∧
       addresses (exec (store_user_address mask_address addr3 SHIPPING) billing_world)
       = {[e]} ∪ addresses billing_world ∧
       default_of SHIPPING
         (user (exec (store_user_address mask_address addr3 SHIPPING) billing_world))
       = Some e.
Proof.
  destruct (store_user_address_stores_obfuscated mask_address billing_world addr3
              SHIPPING) as [Hiff Hentry].
  destruct Hentry as (e & Hd & _ & Hbook & Hdef).
  - apply Hiff. apply (bool_decide_unpack _). exact I.
  - exists e. split; [exact Hd|]. split; [exact Hbook|].
    apply Hdef. reflexivity.
Defined.

(** ** Display name *)

Lemma str_truthy_true s : s ≠ "" → str_truthy s = true.
Proof. by destruct s. Qed.

Lemma str_truthy_false s : s = "" → str_truthy s = false.
Proof. by intros ->. Qed.

(** C4.  Each name component is resolved on its own: it is the user's
    own field when that is non-empty, else the field of the default
    billing address when there is one, else unset; and for a user with
    a first name but no last name the result mixes the user's first
    name with the address's last name. *)
Theorem resolveDisplayName_per_field :
  (∀ u,
     (User.first_name u ≠ "" →
        (resolveDisplayName u).1 = Some (User.first_name u)) ∧
     (User.first_name u = "" → ∀ a, User.default_billing_address u = Some a →
        (resolveDisplayName u).1 = Some (Address.first_name a)) ∧
     (User.first_name u = "" → User.default_billing_address u = None →
        (resolveDisplayName u).1 = None) ∧
     (User.last_name u ≠ "" →
        (resolveDisplayName u).2 = Some (User.last_name u)) ∧
     (User.last_name u = "" → ∀ a, User.default_billing_address u = Some a →
        (resolveDisplayName u).2 = Some (Address.last_name a)) ∧
     (User.last_name u = "" → User.default_billing_address u = None →
        (resolveDisplayName u).2 = None)) ∧
  resolveDisplayName (User.mk "Zoe" "" (Some addr1) None) = (Some "Zoe", Some "Lee").
Proof.
  split; [|reflexivity].
  intros u. unfold resolveDisplayName, get_user_first_name, get_user_last_name.
  simpl. repeat split.
  - intros H. by rewrite str_truthy_true.
  - intros H a Ha. by rewrite str_truthy_false, Ha.
  - intros H Ha. by rewrite str_truthy_false, Ha.
  - intros H. by rewrite str_truthy_true.
  - intros H a Ha. by rewrite str_truthy_false, Ha.
  - intros H Ha. by rewrite str_truthy_false, Ha.
Qed.

Lemma resolveDisplayName_per_field_witness :
  (resolveDisplayName (User.mk "Zoe" "" (Some addr1) None)).1 = Some "Zoe" ∧
  (resolveDisplayName (User.mk "Zoe" "" (Some addr1) None)).2 = Some "Lee" ∧
  (resolveDisplayName (User.mk "" "Kay" (Some addr1) None)).1 = Some "Ann" ∧
  (resolveDisplayName anonymous).1 = None ∧
  (resolveDisplayName anonymous).2 = None.
Proof.
  destruct resolveDisplayName_per_field as [Hall _].
  destruct (Hall (User.mk "Zoe" "" (Some addr1) None)) as (Hf & _ & _ & _ & Hl & _).
  destruct (Hall (User.mk "" "Kay" (Some addr1) None)) as (_ & Hf' & _).
  destruct (Hall anonymous) as (_ & _ & Hn & _ & _ & Hn').
  split; [apply Hf; discriminate|].
  split; [apply (Hl eq_refl addr1 eq_refl)|].
  split; [apply (Hf' eq_refl addr1 eq_refl)|].
  split; [apply Hn; reflexivity | apply Hn'; reflexivity].
Defined.

Lemma filter_absent P (l : list nat) : P ∉ l → filter (λ e, e = P) l = [].
Proof.
  induction l as [|x l IH]; [reflexivity|].
  intros Hnot. apply not_elem_of_cons in Hnot as [Hne Hnot].
  rewrite filter_cons. destruct (decide (x = P)) as [->|_]; [done|].
  by apply IH.
Qed.

Lemma occurrences_member P (scope : gset nat) : P ∈ scope → occurrences P scope = 1.
Proof.
  intros Hin. unfold occurrences.
  assert (Hnd : NoDup (elements scope)) by apply NoDup_elements.
  apply elem_of_elements in Hin.
  induction Hnd as [|x l Hx Hnd IH]; [by apply elem_of_nil in Hin|].
  rewrite filter_cons. destruct (decide (x = P)) as [->|Hne]; simpl.
  - by rewrite filter_absent.
  - apply IH. apply elem_of_cons in Hin as [->|Hin]; [done | exact Hin].
Qed.

Lemma add_each_elem e entities (scope : gset nat) :
  e ∈ add_each entities scope ↔ e ∈ entities ∨ e ∈ scope.
Proof.
  induction entities as [|x l IH]; simpl.
  - rewrite elem_of_nil. tauto.
  - rewrite elem_of_union, elem_of_singleton, IH, elem_of_cons. tauto.
Qed.

Lemma remove_each_elem e entities (scope : gset nat) :
  e ∈ remove_each entities scope ↔ e ∈ scope ∧ e ∉ entities.
Proof.
  induction entities as [|x l IH]; simpl.
  - rewrite elem_of_nil. tauto.
  - rewrite elem_of_difference, elem_of_singleton, IH, elem_of_cons. tauto.
Qed.

Lemma add_each_present entities (scope : gset nat) :
  (∀ e, e ∈ entities → e ∈ scope) → add_each entities scope = scope.
Proof.
  intros Hall. apply set_eq. intros e. rewrite add_each_elem.
  split; [intros [H|H]; [by apply Hall | exact H] | by right].
Qed.

Lemma remove_each_absent entities (scope : gset nat) :
  (∀ e, e ∈ entities → e ∉ scope) → remove_each entities scope = scope.
Proof.
  intros Hall. apply set_eq. intros e. rewrite remove_each_elem.
  split; [by intros [H _] | intros H; split; [exact H|]].
  intros He. by apply (Hall e He).
Qed.

(** C7.  Adding [P] to the products of a discount twice leaves [P] in
    the products exactly once, the second addition changing nothing and
    the other two sets being untouched; adding three empty lists
    changes nothing. *)
Theorem addToScope_absorbs d P :
  let d1 := addToScope d [P] [] [] in
  let d2 := addToScope d1 [P] [] [] in
  P ∈ products d2 ∧
  occurrences P (products d2) = 1 ∧
  d2 = d1 ∧
  collections d2 = collections d ∧
  categories d2 = categories d ∧
  addToScope d [] [] [] = d.
Proof.
  intros d1 d2.
  assert (H1 : P ∈ products d1).
  { unfold d1. simpl. apply elem_of_union_l, elem_of_singleton_2. reflexivity. }
  assert (H21 : d2 = d1).
  { unfold d2, addToScope. destruct d1 as [ps cs gs]. simpl in *.
    f_equal. apply set_eq. intros e.
    rewrite elem_of_union, elem_of_singleton.
    split; [intros [->|H]; [exact H1 | exact H] | by right]. }
  rewrite H21. split; [exact H1|].
  split; [by apply occurrences_member|].
  split; [reflexivity|].
  split; [reflexivity|]. split; [reflexivity|].
  by destruct d.
Qed.

(** C8.  Removing from the products an entity the discount does not
    hold returns the discount as it was: all three scope sets are
    unchanged.  ([removeFromScope] is a total function: there is no
    error to raise.) *)
Theorem removeFromScope_absent d P :
  P ∉ products d →
  removeFromScope d [P] [] [] = d ∧
  products (removeFromScope d [P] [] []) = products d ∧
  collections (removeFromScope d [P] [] []) = collections d ∧
  categories (removeFromScope d [P] [] []) = categories d.
Proof.
  intros Hnot.
  assert (Hp : remove_each [P] (products d) = products d).
  { apply remove_each_absent. intros e He.
    apply list_elem_of_singleton in He as ->. exact Hnot. }
  assert (Hd : removeFromScope d [P] [] [] = d).
  { unfold removeFromScope. rewrite Hp. by destruct d. }
  rewrite Hd. repeat split; reflexivity.
Qed.

Lemma removeFromScope_absent_witness :
  removeFromScope (mkDiscount {[1; 2]} {[7]} ∅) [3] [] []
  = mkDiscount {[1; 2]} {[7]} ∅.
Proof.
  apply (removeFromScope_absent (mkDiscount {[1; 2]} {[7]} ∅) 3).
  simpl. rewrite elem_of_union, !elem_of_singleton. intros [H|H]; discriminate H.
Defined.

(** ** Further properties of the helpers *)

Lemma user_rest_unchanged_refl T w : user_rest_unchanged T w w.
Proof. by repeat split. Qed.

Lemma user_rest_unchanged_installed T a w :
  user_rest_unchanged T w (installed T a w).
Proof. destruct T; by repeat split. Qed.

Lemma matching_empty_absent d (book : gset Address.t) a :
  matching d book = ∅ → Address.as_data a = d → a ∉ book.
Proof.
  intros He Ha Hin.
  assert (a ∈ matching d book) as Hm by (by apply matching_spec).
  rewrite He in Hm. by apply not_elem_of_empty in Hm.
Qed.

Lemma run_op_book_grows obf op w :
  addresses w ⊆ addresses (exec (run_op obf op) w).
Proof.
  unfold exec. destruct op as [A T | a | a | A T]; unfold run_op.
  - rewrite store_user_address_run.
    set (d := Address.as_data (obf A)).
    destruct (get_or_create_cases d w) as [He Hrun | a He Hrun | Hmany Hrun];
      rewrite Hrun; cbn [user]; [| |done].
    + destruct (default_of T (user w)); unfold installed; cbn [snd addresses];
        apply union_subseteq_r.
    + by destruct (default_of T (user w)).
  - by rewrite set_user_default_billing_address_run.
  - by rewrite set_user_default_shipping_address_run.
  - rewrite change_user_default_address_run. unfold installed. cbn [snd addresses].
    destruct (default_of T (user w)); [apply union_subseteq_r | done].
Qed.

Lemma store_user_address_user_kept obf A T w x :
  default_of T (user w) = Some x →
  user (exec (store_user_address obf A T) w) = user w ∧
  user_row (exec (store_user_address obf A T) w) = user_row w.
Proof.
  intros Hdef. unfold exec. rewrite store_user_address_run.
  set (d := Address.as_data (obf A)).
  destruct (get_or_create_cases d w) as [He Hrun | a He Hrun | Hmany Hrun];
    rewrite Hrun; simpl; [rewrite Hdef | rewrite Hdef |]; by split.
Qed.

(** X1.  When the user already has a default of the given type,
    [store_user_address] changes neither the instance nor the row; it
    can only add to the book. *)
Theorem store_user_address_keeps_default obf A T w x :
  default_of T (user w) = Some x →
  let w' := exec (store_user_address obf A T) w in
  user w' = user w ∧ user_row w' = user_row w ∧ addresses w ⊆ addresses w'.
Proof.
  intros Hdef w'.
  destruct (store_user_address_user_kept obf A T w x Hdef) as [Hu Hr].
  split; [exact Hu|]. split; [exact Hr|].
  apply (run_op_book_grows obf (OpStore A T) w).
Qed.

Lemma store_user_address_keeps_default_witness :
  user (exec (store_user_address mask_address addr3 BILLING) billing_world)
  = user billing_world ∧
  addr1 ∈ addresses (exec (store_user_address mask_address addr3 BILLING) billing_world).
Proof.
  destruct (store_user_address_keeps_default mask_address addr3 BILLING
              billing_world addr1 eq_refl) as (Hu & _ & Hsub).
  split; [exact Hu|]. apply Hsub.
  change (addr1 ∈ ({[addr1]} : gset Address.t)).
  apply elem_of_singleton_2. reflexivity.
Defined.

(** X2.  [store_user_address] for one type never touches the names or
    the default of the other type, on the instance or on the row. *)
Theorem store_user_address_frame obf A T w :
  user_rest_unchanged T w (exec (store_user_address obf A T) w).
Proof.
  unfold exec. rewrite store_user_address_run.
  set (d := Address.as_data (obf A)).
  destruct (get_or_create_cases d w) as [He Hrun | a He Hrun | Hmany Hrun];
    rewrite Hrun; simpl.
  - destruct (default_of T (user w)); destruct T; by repeat split.
  - destruct (default_of T (user w)); destruct T; by repeat split.
  - apply user_rest_unchanged_refl.
Qed.

(** X3.  [store_user_address] never removes an entry; when no entry has
    the field values of the obfuscated address it returns and the book
    grows by exactly one entry, and otherwise the book is unchanged. *)
Theorem store_user_address_book obf A T w :
  let d := Address.as_data (obf A) in
  let w' := exec (store_user_address obf A T) w in
  addresses w ⊆ addresses w' ∧
  (matching d (addresses w) = ∅ →
     (store_user_address obf A T w).1 = Ok () ∧
     size (addresses w') = S (size (addresses w))) ∧
  (matching d (addresses w) ≠ ∅ → addresses w' = addresses w).
Proof.
  intros d w'. subst w'. unfold exec. rewrite store_user_address_run. fold d.
  destruct (get_or_create_cases d w) as [He Hrun | a He Hrun | Hmany Hrun];
    rewrite Hrun.
  - assert (Hsize : size ({[Address.mk (address_seq w) d]} ∪ addresses w)
                    = S (size (addresses w))).
    { rewrite size_union, size_singleton; [reflexivity|].
      apply disjoint_singleton_l. by apply (matching_empty_absent d). }
    cbn [user].
    destruct (default_of T (user w)); unfold installed; cbn [fst snd addresses];
      (split; [apply union_subseteq_r|]); (split; [done | by intros Hne]).
  - assert (Hne : matching d (addresses w) ≠ ∅).
    { rewrite He. intros Hs. apply (not_elem_of_empty (C:=gset Address.t) a).
      rewrite <- Hs. by apply elem_of_singleton_2. }
    destruct (default_of T (user w)); unfold installed; cbn [fst snd addresses];
      (split; [done|]); (split; [by intros Hs | done]).
  - cbn [fst snd]. split; [done|]. split; [|done].
    intros He. rewrite He, size_empty in Hmany. lia.
Qed.

Lemma store_user_address_book_witness :
  size (addresses (exec (store_user_address mask_address addr1 BILLING) fresh_world))
  = 1 ∧
  addresses (exec (store_user_address id addr1 BILLING) billing_world)
  = addresses billing_world.
Proof.
  destruct (store_user_address_book mask_address addr1 BILLING fresh_world)
    as (_ & Hnew & _).
  destruct (store_user_address_book id addr1 BILLING billing_world)
    as (_ & _ & Hold).
  split.
  - destruct (Hnew (matching_empty _)) as [_ Hsize]. exact Hsize.
  - apply Hold. intros He.
    assert (Hin : addr1 ∈ matching (Address.as_data (id addr1))
                            (addresses billing_world)).
    { apply matching_spec. split; [reflexivity|].
      change (addr1 ∈ ({[addr1]} : gset Address.t)).
      apply elem_of_singleton_2. reflexivity. }
    rewrite He in Hin. by apply not_elem_of_empty in Hin.
Defined.

(** X4.  [store_user_address] raises only [MultipleObjectsReturned],
    only when the book holds at least two entries with the field values
    of the obfuscated address, and then leaves the world as it was. *)
Theorem store_user_address_raise obf A T w e :
  (store_user_address obf A T w).1 = Raise e →
  e = MultipleObjectsReturned ∧
  2 ≤ size (matching (Address.as_data (obf A)) (addresses w)) ∧
  exec (store_user_address obf A T) w = w.
Proof.
  unfold exec. rewrite store_user_address_run.
  set (d := Address.as_data (obf A)).
  destruct (get_or_create_cases d w) as [He Hrun | a He Hrun | Hmany Hrun];
    rewrite Hrun.
  - destruct (default_of T _); discriminate.
  - destruct (default_of T (user w)); discriminate.
  - cbn [fst snd]. intros _. destruct e. by repeat split.
Qed.

Lemma store_user_address_raise_witness :
  exec (store_user_address id addr1 SHIPPING) twin_world = twin_world.
Proof.
  apply (store_user_address_raise id addr1 SHIPPING twin_world
           MultipleObjectsReturned).
  reflexivity.
Defined.

Lemma store_user_address_reuse obf A T w e :
  matching (Address.as_data (obf A)) (addresses w) = {[e]} →
  store_user_address obf A T w = (Ok (), settled T e w).
Proof.
  intros Hm. rewrite store_user_address_run.
  rewrite (get_or_create_single _ w e Hm). unfold settled.
  by destruct (default_of T (user w)).
Qed.

(** A call that returns goes through a world [w1] that differs from
    [w] in the book at most, where exactly one entry [e] has the field
    values of the obfuscated address; whatever the type, the call ends
    in [settled T e w1]. *)
Lemma store_user_address_first obf A w :
  let d := Address.as_data (obf A) in
  size (matching d (addresses w)) ≤ 1 →
  ∃ e w1, user w1 = user w ∧ user_row w1 = user_row w ∧
          addresses w ⊆ addresses w1 ∧
          Address.as_data e = d ∧
          matching d (addresses w1) = {[e]} ∧
          ∀ T, store_user_address obf A T w = (Ok (), settled T e w1).
Proof.
  intros d Hsize.
  destruct (get_or_create_cases d w) as [He Hrun | a He Hrun | Hmany Hrun];
    [| |lia].
  - exists (Address.mk (address_seq w) d),
           (mkWorld (user w) (user_row w)
                    ({[Address.mk (address_seq w) d]} ∪ addresses w)
                    (S (address_seq w))).
    split; [done|]. split; [done|]. split; [apply union_subseteq_r|].
    split; [done|]. split; [by apply matching_insert_new|].
    intros T. rewrite store_user_address_run. fold d. rewrite Hrun.
    unfold settled. cbn [user].
    by destruct (default_of T (user w)).
  - exists a, w.
    assert (Ha : a ∈ matching d (addresses w))
      by (rewrite He; by apply elem_of_singleton_2).
    apply matching_spec in Ha as [Had _].
    split; [done|]. split; [done|]. split; [done|].
    split; [done|]. split; [done|].
    intros T. by apply store_user_address_reuse.
Qed.

Lemma settled_addresses T e w : addresses (settled T e w) = addresses w.
Proof. unfold settled. by destruct (default_of T (user w)). Qed.

Lemma settled_commute e w :
  settled BILLING e (settled SHIPPING e w) = settled SHIPPING e (settled BILLING e w).
Proof.
  destruct w as [[f l b s] [f' l' b' s'] book n].
  unfold settled. simpl. by destruct b, s.
Qed.

(** X5.  Storing the same address for billing and then for shipping is
    the same as storing it for shipping and then for billing: same
    outcome, same world. *)
Theorem store_user_address_types_commute obf A w :
  (store_user_address obf A BILLING;; store_user_address obf A SHIPPING) w =
  (store_user_address obf A SHIPPING;; store_user_address obf A BILLING) w.
Proof.
  set (d := Address.as_data (obf A)).
  destruct (decide (size (matching d (addresses w)) ≤ 1)) as [Hle|Hgt].
  - destruct (store_user_address_first obf A w Hle)
      as (e & w1 & _ & _ & _ & _ & Hm & Hrun).
    unfold mbind, M_bind. rewrite !Hrun.
    rewrite (store_user_address_reuse obf A SHIPPING (settled BILLING e w1) e)
      by (by rewrite settled_addresses).
    rewrite (store_user_address_reuse obf A BILLING (settled SHIPPING e w1) e)
      by (by rewrite settled_addresses).
    by rewrite settled_commute.
  - unfold mbind, M_bind. rewrite !store_user_address_run. fold d.
    destruct (get_or_create_cases d w) as [He Hrun | a He Hrun | Hmany Hrun].
    + rewrite He, size_empty in Hgt. lia.
    + rewrite He, size_singleton in Hgt. lia.
    + by rewrite Hrun.
Qed.

(** X6.  For a user with neither default and at most one entry with the
    field values of the obfuscated address, storing the address for
    shipping and then for billing returns and leaves both defaults, on
    the instance and on the row, pointing at one and the same entry,
    the only one in the book with those field values. *)
Theorem store_user_address_both_defaults obf A w :
  let d := Address.as_data (obf A) in
  let m := store_user_address obf A SHIPPING;; store_user_address obf A BILLING in
  User.default_billing_address (user w) = None →
  User.default_shipping_address (user w) = None →
  size (matching d (addresses w)) ≤ 1 →
  (m w).1 = Ok () ∧
  ∃ e, Address.as_data e = d ∧
       matching d (addresses (exec m w)) = {[e]} ∧
       user (exec m w) =
         User.mk (User.first_name (user w)) (User.last_name (user w)) (Some e) (Some e) ∧
       User.default_billing_address (user_row (exec m w)) = Some e ∧
       User.default_shipping_address (user_row (exec m w)) = Some e.
Proof.
  intros d m Hb Hs Hle.
  destruct (store_user_address_first obf A w Hle)
    as (e & w1 & Hu & Hr & _ & Hd & Hm & Hrun).
  assert (Hmw : m w = (Ok (), settled BILLING e (settled SHIPPING e w1))).
  { unfold m, mbind, M_bind. rewrite Hrun.
    apply store_user_address_reuse. by rewrite settled_addresses. }
  unfold exec. rewrite Hmw. cbn [fst snd]. split; [done|]. exists e.
  split; [done|]. split; [by rewrite !settled_addresses|].
  destruct w1 as [u1 r1 book1 n1]. simpl in Hu, Hr. subst u1 r1.
  unfold settled. simpl. rewrite Hs. simpl. rewrite Hb. simpl.
  by repeat split.
Qed.

Lemma store_user_address_both_defaults_witness :
  let m := store_user_address mask_address addr1 SHIPPING;;
           store_user_address mask_address addr1 BILLING in
  ∃ e, user (exec m fresh_world) = User.mk "" "" (Some e) (Some e).
Proof.
  destruct (store_user_address_both_defaults mask_address addr1 fresh_world)
    as (_ & e & _ & _ & Hu & _).
  - reflexivity.
  - reflexivity.
  - simpl. rewrite matching_empty, size_empty. lia.
  - exists e. exact Hu.
Defined.

Lemma exec_bind_ok {A B} (m : M A) (k : A → M B) w a w1 :
  m w = (Ok a, w1) → exec (m ≫= k) w = exec (k a) w1.
Proof. intros H. unfold exec, mbind, M_bind. by rewrite H. Qed.

(** X7.  The first address stored for a type stays the default: when a
    user without a type-[T] default stores [A] and then [B] for [T],
    the type-[T] default, on the instance and on the row, still has the
    field values of the obfuscated [A], whether or not the second call
    returns. *)
Theorem store_user_address_first_wins obf A B T w :
  let d := Address.as_data (obf A) in
  let w2 := exec (store_user_address obf A T;; store_user_address obf B T) w in
  default_of T (user w) = None →
  size (matching d (addresses w)) ≤ 1 →
  ∃ e, Address.as_data e = d ∧
       default_of T (user w2) = Some e ∧
       default_of T (user_row w2) = Some e.
Proof.
  intros d w2 Hnone Hle.
  destruct (store_user_address_first obf A w Hle)
    as (e & w1 & Hu & _ & _ & Hd & _ & Hrun).
  exists e. split; [exact Hd|].
  unfold w2. rewrite (exec_bind_ok _ _ w () (settled T e w1) (Hrun T)).
  assert (Hset : settled T e w1 = installed T e w1).
  { unfold settled. by rewrite Hu, Hnone. }
  rewrite Hset.
  destruct (store_user_address_user_kept obf B T (installed T e w1) e
              (default_of_installed T e w1)) as [Hku Hkr].
  rewrite Hku, Hkr. simpl. by rewrite !default_of_with_default.
Qed.

Lemma store_user_address_first_wins_witness :
  ∃ e, Address.as_data e = Address.as_data (mask_address addr1) ∧
       default_of BILLING
         (user (exec (store_user_address mask_address addr1 BILLING;;
                      store_user_address mask_address addr3 BILLING) fresh_world))
       = Some e.
Proof.
  destruct (store_user_address_first_wins mask_address addr1 addr3 BILLING fresh_world)
    as (e & Hd & Hu & _).
  - reflexivity.
  - simpl. rewrite matching_empty, size_empty. lia.
  - exists e. split; [exact Hd | exact Hu].
Defined.

Lemma exec_ops_book_grows obf ops w :
  addresses w ⊆ addresses (exec_ops obf ops w).
Proof.
  revert w. induction ops as [|op rest IH]; intros w; [done|].
  simpl. etrans; [apply (run_op_book_grows obf op w) | apply IH].
Qed.

(** X8.  No helper ever removes an address from the book: after any of
    them, and after any sequence of calls of them, whatever their
    arguments and whether or not they return, the book contains every
    entry it contained before. *)
Theorem address_book_only_grows obf w :
  (∀ op, addresses w ⊆ addresses (exec (run_op obf op) w)) ∧
  (∀ ops, addresses w ⊆ addresses (exec_ops obf ops w)) ∧
  (∀ ops a, a ∈ addresses w → a ∈ addresses (exec_ops obf ops w)).
Proof.
  split; [intros op; apply run_op_book_grows|].
  split; [intros ops; apply exec_ops_book_grows|].
  intros ops a Ha. by apply (exec_ops_book_grows obf ops w).
Qed.

Lemma address_book_only_grows_witness :
  addr1 ∈ addresses
    (exec_ops mask_address
       [OpChange addr3 BILLING; OpStore addr1 SHIPPING; OpSetShipping addr2;
        OpStore addr2 BILLING; OpChange addr2 SHIPPING]
       billing_world).
Proof.
  destruct (address_book_only_grows mask_address billing_world) as (_ & _ & Hkept).
  apply Hkept.
  change (addr1 ∈ ({[addr1]} : gset Address.t)).
  apply elem_of_singleton_2. reflexivity.
Defined.

(** X9.  [change_user_default_address] for one type never touches the
    names or the default of the other type, on the instance or on the
    row, and creates no address row. *)
Theorem change_user_default_address_frame A T w :
  let w' := exec (change_user_default_address A T) w in
  user_rest_unchanged T w w' ∧ address_seq w' = address_seq w.
Proof.
  intros w'. subst w'. unfold exec. rewrite change_user_default_address_run.
  split; [|reflexivity]. destruct T; by repeat split.
Qed.

(** X10.  Making an address of the book the default twice in a row is
    the same as doing it once. *)
Theorem change_user_default_address_twice A T w :
  A ∈ addresses w →
  (change_user_default_address A T;; change_user_default_address A T) w =
  change_user_default_address A T w.
Proof.
  intros Hin. unfold mbind, M_bind.
  rewrite (change_user_default_address_run A T w).
  rewrite change_user_default_address_run. f_equal.
  cbn [user]. rewrite default_of_installed.
  destruct w as [u r book n]. unfold installed. cbn [user user_row addresses address_seq].
  assert (Hbook : ∀ X : gset Address.t, book ⊆ X → {[A]} ∪ X = X).
  { intros X HX. apply set_eq. intros y.
    rewrite elem_of_union, elem_of_singleton.
    split; [intros [->|Hy]; [by apply HX | exact Hy] | by right]. }
  rewrite Hbook
    by (destruct (default_of T u); [apply union_subseteq_r | done]).
  destruct u, r, T; reflexivity.
Qed.

Lemma change_user_default_address_twice_witness :
  (change_user_default_address addr1 SHIPPING;;
   change_user_default_address addr1 SHIPPING) billing_world =
  change_user_default_address addr1 SHIPPING billing_world.
Proof.
  apply change_user_default_address_twice.
  change (addr1 ∈ ({[addr1]} : gset Address.t)).
  apply elem_of_singleton_2. reflexivity.
Defined.

(** X11.  The two setters commute, and of two calls of the same setter
    the later one decides. *)
Theorem setters_compose a b w :
  (set_user_default_billing_address a;; set_user_default_shipping_address b) w =
  (set_user_default_shipping_address b;; set_user_default_billing_address a) w ∧
  (set_user_default_billing_address a;; set_user_default_billing_address b) w =
  set_user_default_billing_address b w ∧
  (set_user_default_shipping_address a;; set_user_default_shipping_address b) w =
  set_user_default_shipping_address b w.
Proof. destruct w as [u r book n]. by repeat split. Qed.

Lemma resolveDisplayName_depends u u' :
  User.first_name u' = User.first_name u →
  User.last_name u' = User.last_name u →
  User.default_billing_address u' = User.default_billing_address u →
  resolveDisplayName u' = resolveDisplayName u.
Proof.
  intros Hf Hl Hb.
  unfold resolveDisplayName, get_user_first_name, get_user_last_name.
  by rewrite Hf, Hl, Hb.
Qed.

(** X12.  After an address has been stored for billing for a user
    without a default billing address, each name that the user lacks is
    displayed from the obfuscated address, not from the address handed
    in. *)
Theorem display_name_after_store obf A w :
  User.default_billing_address (user w) = None →
  size (matching (Address.as_data (obf A)) (addresses w)) ≤ 1 →
  let u' := user (exec (store_user_address obf A BILLING) w) in
  (User.first_name (user w) = "" →
     get_user_first_name u' = Some (Address.first_name (obf A))) ∧
  (User.last_name (user w) = "" →
     get_user_last_name u' = Some (Address.last_name (obf A))) ∧
  (User.first_name (user w) ≠ "" →
     get_user_first_name u' = Some (User.first_name (user w))) ∧
  (User.last_name (user w) ≠ "" →
     get_user_last_name u' = Some (User.last_name (user w))).
Proof.
  intros Hnone Hle u'.
  destruct (store_user_address_first obf A w Hle)
    as (e & w1 & Hu & _ & _ & Hd & _ & Hrun).
  assert (Hu' : u' = User.with_default_billing_address (Some e) (user w)).
  { unfold u', exec. rewrite (Hrun BILLING). unfold settled. cbn [snd default_of].
    rewrite Hu, Hnone. simpl. by rewrite Hu. }
  assert (Hfe : Address.first_name e = Address.first_name (obf A))
    by (unfold Address.first_name; unfold Address.as_data in Hd; by rewrite Hd).
  assert (Hle' : Address.last_name e = Address.last_name (obf A))
    by (unfold Address.last_name; unfold Address.as_data in Hd; by rewrite Hd).
  rewrite Hu'. unfold get_user_first_name, get_user_last_name. simpl.
  repeat split.
  - intros H. by rewrite str_truthy_false, Hfe.
  - intros H. by rewrite str_truthy_false, Hle'.
  - intros H. by rewrite str_truthy_true.
  - intros H. by rewrite str_truthy_true.
Qed.

Lemma display_name_after_store_witness :
  get_user_first_name
    (user (exec (store_user_address mask_address addr1 BILLING) fresh_world))
  = Some "A.." ∧
  get_user_last_name
    (user (exec (store_user_address mask_address addr1 BILLING) fresh_world))
  = Some "L..".
Proof.
  destruct (display_name_after_store mask_address addr1 fresh_world)
    as (Hf & Hl & _ & _).
  - reflexivity.
  - simpl. rewrite matching_empty, size_empty. lia.
  - split; [apply Hf; reflexivity | apply Hl; reflexivity].
Defined.

Lemma user_rest_unchanged_shipping_names w w' :
  user_rest_unchanged SHIPPING w w' →
  resolveDisplayName (user w') = resolveDisplayName (user w).
Proof.
  intros (Hf & Hl & Hb & _). by apply resolveDisplayName_depends.
Qed.

(** X13.  Nothing done to the default shipping address changes the
    display name: not storing an address for shipping, not the shipping
    setter, not changing the default shipping address. *)
Theorem display_name_ignores_shipping obf A w :
  resolveDisplayName (user (exec (store_user_address obf A SHIPPING) w))
  = resolveDisplayName (user w) ∧
  resolveDisplayName (user (exec (set_user_default_shipping_address A) w))
  = resolveDisplayName (user w) ∧
  resolveDisplayName (user (exec (change_user_default_address A SHIPPING) w))
  = resolveDisplayName (user w).
Proof.
  split; [|split].
  - apply user_rest_unchanged_shipping_names.
    unfold exec. rewrite store_user_address_run.
    set (d := Address.as_data (obf A)).
    destruct (get_or_create_cases d w) as [He Hrun | a He Hrun | Hmany Hrun];
      rewrite Hrun; cbn [user];
      [destruct (default_of SHIPPING (user w))
      |destruct (default_of SHIPPING (user w))|]; by repeat split.
  - by apply resolveDisplayName_depends.
  - apply user_rest_unchanged_shipping_names.
    unfold exec. rewrite change_user_default_address_run. by repeat split.
Qed.

(** X14.  A name is unset exactly when the user has none and has no
    default billing address; and it is the empty string, not unset,
    exactly when the user has none and the default billing address has
    an empty one. *)
Theorem display_name_unset_or_empty u :
  (get_user_first_name u = None ↔
     User.first_name u = "" ∧ User.default_billing_address u = None) ∧
  (get_user_last_name u = None ↔
     User.last_name u = "" ∧ User.default_billing_address u = None) ∧
  (get_user_first_name u = Some "" ↔
     User.first_name u = "" ∧
     ∃ a, User.default_billing_address u = Some a ∧ Address.first_name a = "") ∧
  (get_user_last_name u = Some "" ↔
     User.last_name u = "" ∧
     ∃ a, User.default_billing_address u = Some a ∧ Address.last_name a = "").
Proof.
  destruct u as [f l [a|] s]; unfold get_user_first_name, get_user_last_name;
    destruct f as [|c f], l as [|c' l]; simpl; repeat split;
    try (intros; discriminate); try done;
    try (by intros [? ?]); try (by intros [_ (? & ? & _)]).
  all: try (exists a; split; [reflexivity | congruence]).
  all: intros [_ (a' & Ha & Hn)]; injection Ha as <-; by rewrite Hn.
Qed.

Lemma display_name_unset_or_empty_witness :
  get_user_first_name
    (User.mk "" "Kay" (Some (Address.mk 9 (AddressData.mk "" "" "Main St" "X" "PL")))
             None)
  = Some "".
Proof.
  apply (display_name_unset_or_empty
           (User.mk "" "Kay"
              (Some (Address.mk 9 (AddressData.mk "" "" "Main St" "X" "PL"))) None)).
  split; [reflexivity|]. eexists. split; reflexivity.
Defined.

Lemma defaults_saved_installed T a w :
  defaults_saved w → defaults_saved (installed T a w).
Proof.
  intros Hs T'. specialize (Hs T').
  destruct w as [[f l b s] [f' l' b' s'] book n].
  destruct T, T'; simpl in *; congruence.
Qed.

(** X15.  The helpers persist every default pointer they assign: when
    the instance and the row agree on both default pointers before a
    helper runs, they agree after it. *)
Theorem defaults_saved_preserved obf op w :
  defaults_saved w → defaults_saved (exec (run_op obf op) w).
Proof.
  intros Hs. unfold exec. destruct op as [A T | a | a | A T]; unfold run_op.
  - rewrite store_user_address_run.
    set (d := Address.as_data (obf A)).
    destruct (get_or_create_cases d w) as [He Hrun | a He Hrun | Hmany Hrun];
      rewrite Hrun; cbn [user]; [| |done].
    + destruct (default_of T (user w)); cbn [snd]; [exact Hs|].
      by apply (defaults_saved_installed T _ (mkWorld (user w) (user_row w) _ _)).
    + destruct (default_of T (user w)); cbn [snd]; [exact Hs|].
      by apply defaults_saved_installed.
  - rewrite set_user_default_billing_address_run.
    by apply (defaults_saved_installed BILLING).
  - rewrite set_user_default_shipping_address_run.
    by apply (defaults_saved_installed SHIPPING).
  - rewrite change_user_default_address_run.
    by apply (defaults_saved_installed T _ (mkWorld (user w) (user_row w) _ _)).
Qed.

Lemma defaults_saved_preserved_witness :
  defaults_saved (exec (run_op mask_address (OpChange addr3 BILLING)) billing_world).
Proof.
  apply defaults_saved_preserved. intros T. by destruct T.
Defined.

(** X16.  After the default billing address has been changed to [A],
    each name that the user lacks is displayed from [A] as it is (no
    obfuscation on this path), and each name the user has is displayed
    unchanged. *)
Theorem display_name_after_change A w :
  let u' := user (exec (change_user_default_address A BILLING) w) in
  (User.first_name (user w) = "" →
     get_user_first_name u' = Some (Address.first_name A)) ∧
  (User.last_name (user w) = "" →
     get_user_last_name u' = Some (Address.last_name A)) ∧
  (User.first_name (user w) ≠ "" →
     get_user_first_name u' = Some (User.first_name (user w))) ∧
  (User.last_name (user w) ≠ "" →
     get_user_last_name u' = Some (User.last_name (user w))).
Proof.
  intros u'. subst u'. unfold exec. rewrite change_user_default_address_run.
  unfold get_user_first_name, get_user_last_name. simpl.
  repeat split.
  - intros H. by rewrite str_truthy_false.
  - intros H. by rewrite str_truthy_false.
  - intros H. by rewrite str_truthy_true.
  - intros H. by rewrite str_truthy_true.
Qed.

Lemma display_name_after_change_witness :
  get_user_first_name
    (user (exec (change_user_default_address addr3 BILLING) billing_world))
  = Some "Bob".
Proof.
  apply (display_name_after_change addr3 billing_world). reflexivity.
Defined.
